(** * Paneo Health prototype: navigation and contact-form controllers

    A shallow embedding of the two pieces of behaviour in [src/App.tsx]:
    the hash navigation effect of [App] and the state, validation and
    submission life cycle of [ContactForm].  JavaScript strings are
    sequences of UTF-16 code units, the regular expression literal of the
    form is given its language semantics together with an executable
    matcher, and the React state of each component is threaded explicitly
    through the event handlers. *)

From Stdlib Require Import List NArith Bool String Ascii Lia.
Import ListNotations.

Set Implicit Arguments.

(* ================================================================== *)
(** ** JavaScript values used by the page *)

Module JS.

(** A string is a sequence of 16-bit code units. *)
Definition code_unit := N.
Definition jsstring := list code_unit.

(** String literals of the source, which are all ASCII. *)
Definition lit (s : string) : jsstring :=
  map N_of_ascii (list_ascii_of_string s).

Fixpoint str_eqb (a b : jsstring) : bool :=
  match a, b with
  | [], [] => true
  | x :: a', y :: b' => N.eqb x y && str_eqb a' b'
  | _, _ => false
  end.

(** The values that flow through [&&] and [||] in the source. *)
Inductive value :=
| VStr (s : jsstring)
| VBool (b : bool).

(** ToBoolean: the empty string and [false] are the falsy ones. *)
Definition truthy (v : value) : bool :=
  match v with
  | VStr [] => false
  | VStr (_ :: _) => true
  | VBool b => b
  end.

(** [a && b] yields [a] when [a] is falsy and [b] otherwise. *)
Definition and_ (a b : value) : value := if truthy a then b else a.

(** [a || b] on strings, as in [window.location.hash || "#home"]. *)
Definition or_str (a b : jsstring) : jsstring :=
  match a with
  | [] => b
  | _ :: _ => a
  end.

(** Outcome of evaluating code that may throw. *)
Inductive completion (A : Type) :=
| Normal (a : A)
| Throw.
Arguments Throw {A}.

Definition bind {A B} (c : completion A) (k : A -> completion B) : completion B :=
  match c with
  | Normal a => k a
  | Throw => Throw
  end.

End JS.

Notation "x <- c ;; k" := (JS.bind c (fun x => k))
(at level 61, c at next level, right associativity).

(* ================================================================== *)
(** ** Regular expressions without flags *)

Module Regex.

Import JS.

Inductive re :=
| Void                       (* matches nothing *)
| Eps                        (* the empty pattern *)
| Chr (c : code_unit)        (* a literal or escaped character *)
| Dot                        (* [.] *)
| Seq (r1 r2 : re)
| Alt (r1 r2 : re)
| Star (r : re).

(** [r+] *)
Definition Plus (r : re) : re := Seq r (Star r).

(** Without the [s] flag, [.] matches every code unit except the four
    line terminators LF, CR, LS and PS. *)
Definition isLineTerminator (c : code_unit) : bool :=
  N.eqb c 10 || N.eqb c 13 || N.eqb c 8232 || N.eqb c 8233.

(** The language of a pattern. *)
Inductive matches : re -> jsstring -> Prop :=
| MEps : matches Eps []
| MChr c : matches (Chr c) [c]
| MDot c : isLineTerminator c = false -> matches Dot [c]
| MSeq r1 r2 s1 s2 :
    matches r1 s1 -> matches r2 s2 -> matches (Seq r1 r2) (s1 ++ s2)
| MAltL r1 r2 s : matches r1 s -> matches (Alt r1 r2) s
| MAltR r1 r2 s : matches r2 s -> matches (Alt r1 r2) s
| MStar0 r : matches (Star r) []
| MStarS r s1 s2 :
    matches r s1 -> matches (Star r) s2 -> matches (Star r) (s1 ++ s2).

(** Executable matcher by derivatives. *)
Fixpoint nullable (r : re) : bool :=
  match r with
  | Void => false
  | Eps => true
  | Chr _ => false
  | Dot => false
  | Seq r1 r2 => nullable r1 && nullable r2
  | Alt r1 r2 => nullable r1 || nullable r2
  | Star _ => true
  end.

Fixpoint deriv (c : code_unit) (r : re) : re :=
  match r with
  | Void => Void
  | Eps => Void
  | Chr d => if N.eqb c d then Eps else Void
  | Dot => if isLineTerminator c then Void else Eps
  | Seq r1 r2 =>
      if nullable r1
      then Alt (Seq (deriv c r1) r2) (deriv c r2)
      else Seq (deriv c r1) r2
  | Alt r1 r2 => Alt (deriv c r1) (deriv c r2)
  | Star r1 => Seq (deriv c r1) (Star r1)
  end.

(** Does the pattern match at the start of [s] (some prefix of [s])? *)
Fixpoint match_at_start (r : re) (s : jsstring) : bool :=
  nullable r ||
  match s with
  | [] => false
  | c :: s' => match_at_start (deriv c r) s'
  end.

(** [RegExp.prototype.test] for a pattern without flags: the start
    positions are tried from left to right. *)
Fixpoint test (r : re) (s : jsstring) : bool :=
  match_at_start r s ||
  match s with
  | [] => false
  | _ :: s' => test r s'
  end.

End Regex.

(* ================================================================== *)
(** ** The contact form *)

Module ContactForm.

Import JS.

(** [useState({ name, email, org, message })] *)
Record FormState := mkForm {
  name : jsstring;
  email : jsstring;
  org : jsstring;
  message : jsstring
}.

(** [useState<"idle" | "sending" | "success" | "error">] *)
Inductive Status := idle | sending | success | error.

Definition status_eqb (a b : Status) : bool :=
  match a, b with
  | idle, idle | sending, sending | success, success | error, error => true
  | _, _ => false
  end.

(** The literal [/.+@.+\..+/]. *)
Definition emailRe : Regex.re :=
  Regex.Seq (Regex.Plus Regex.Dot)
    (Regex.Seq (Regex.Chr 64%N)
       (Regex.Seq (Regex.Plus Regex.Dot)
          (Regex.Seq (Regex.Chr 46%N) (Regex.Plus Regex.Dot)))).

Definition emailOk (state : FormState) : bool :=
  Regex.test emailRe (email state).

(** [state.name && emailOk && state.message && status !== "sending"] *)
Definition canSubmit (state : FormState) (status : Status) : value :=
  and_ (and_ (and_ (VStr (name state)) (VBool (emailOk state)))
             (VStr (message state)))
       (VBool (negb (status_eqb status sending))).

Definition emptyForm : FormState := mkForm [] [] [] [].

(** The four [onChange] handlers:
    [setState({ ...state, <field>: e.target.value })]. *)
Inductive Field := FName | FEmail | FOrg | FMessage.

Definition setField (f : Field) (v : jsstring) (state : FormState) : FormState :=
  match f with
  | FName => mkForm v (email state) (org state) (message state)
  | FEmail => mkForm (name state) v (org state) (message state)
  | FOrg => mkForm (name state) (email state) v (message state)
  | FMessage => mkForm (name state) (email state) (org state) v
  end.

(** How the awaited submission operation settles.  The timer of the
    source always completes; [Faulted] is a submission operation that
    rejects, which the [catch] block is there for. *)
Inductive Outcome := Completed | Faulted.

(** The component between two events: its two pieces of React state,
    the [onSubmit] calls suspended at [await] (each with the [state] its
    closure captured), the number of submission operations started and
    what was written with [console.log]. *)
Record Component := mkComponent {
  state : FormState;
  status : Status;
  inflight : list FormState;
  calls : nat;
  console : list FormState
}.

(** The component as first rendered. *)
Definition mounted : Component := mkComponent emptyForm idle [] 0 [].

(** [onSubmit] up to its [await]: the guard, [setStatus("sending")] and
    the start of the submission operation.  ([e.preventDefault()] acts on
    the event only.) *)
Definition onSubmit (c : Component) : Component :=
  if negb (truthy (canSubmit (state c) (status c)))
  then c
  else mkComponent (state c) sending
                   (inflight c ++ [state c]) (S (calls c)) (console c).

(** [onSubmit] from its [await] on, for the oldest suspended call: the
    rest of the [try] block, or the [catch] block. *)
Definition resume (o : Outcome) (c : Component) : Component :=
  match inflight c with
  | [] => c
  | captured :: rest =>
      match o with
      | Completed =>
          mkComponent emptyForm success rest (calls c)
                      (console c ++ [captured])
      | Faulted =>
          mkComponent (state c) error rest (calls c) (console c)
      end
  end.

Definition onChange (f : Field) (v : jsstring) (c : Component) : Component :=
  mkComponent (setField f v (state c)) (status c)
              (inflight c) (calls c) (console c).

Inductive Event :=
| Change (f : Field) (v : jsstring)
| Submit
| Settle (o : Outcome).

Definition handle (c : Component) (e : Event) : Component :=
  match e with
  | Change f v => onChange f v c
  | Submit => onSubmit c
  | Settle o => resume o c
  end.

Definition run (c : Component) (es : list Event) : Component :=
  fold_left handle es c.

(** The statuses the component goes through, the starting one first. *)
Fixpoint statuses (c : Component) (es : list Event) : list Status :=
  status c ::
  match es with
  | [] => []
  | e :: es' => statuses (handle c e) es'
  end.

(** The status changes of the life cycle: a submit cycle starts at
    [sending] and ends in [success] or [error]. *)
Definition cycle_step (a b : Status) : bool :=
  match a, b with
  | idle, sending | success, sending | error, sending => true
  | sending, success | sending, error => true
  | _, _ => false
  end.

(** The status changes an event can cause. *)
Inductive transition : Status -> Event -> Status -> Prop :=
| T_change a f v : transition a (Change f v) a
| T_submit a : a <> sending -> transition a Submit sending
| T_refused a : transition a Submit a
| T_success : transition sending (Settle Completed) success
| T_error : transition sending (Settle Faulted) error
| T_nothing_pending a o : a <> sending -> transition a (Settle o) a.

(** Exactly one [onSubmit] call is suspended while the status is
    [sending], and none otherwise. *)
Definition one_cycle_at_a_time (c : Component) : Prop :=
  match status c with
  | sending => exists captured, inflight c = [captured]
  | _ => inflight c = []
  end.

Definition changes (edits : list (Field * jsstring)) : list Event :=
  map (fun e => Change (fst e) (snd e)) edits.

(** The placeholder texts of the form, typed in order into the fresh
    form. *)
Definition janeDoe : FormState :=
  mkForm (lit "Jane Doe") (lit "jane@hospital.org") [] (lit "Need help").

Definition typing (f : FormState) : list Event :=
  [Change FName (name f); Change FEmail (email f);
   Change FOrg (org f); Change FMessage (message f)].

(** What [/.+@.+\..+/] looks for: a run of characters other than line
    terminators, an at-sign, another run, a dot and a third run, anywhere
    in the string. *)
Definition dotRun (s : jsstring) : Prop :=
  s <> [] /\ Forall (fun c => Regex.isLineTerminator c = false) s.

Definition emailShape (s : jsstring) : Prop :=
  exists pre a b c post,
    s = pre ++ a ++ 64%N :: b ++ 46%N :: c ++ post /\
    dotRun a /\ dotRun b /\ dotRun c.

(** The validation rule in the words of the specification: the whole
    string is one or more characters other than dot and at-sign, an
    at-sign, one or more characters, a dot, one or more characters. *)
Definition spec_email_shape (s : jsstring) : Prop :=
  exists a b c,
    s = a ++ 64%N :: b ++ 46%N :: c /\
    a <> [] /\ Forall (fun x => x <> 46%N /\ x <> 64%N) a /\
    b <> [] /\ c <> [].

End ContactForm.

(* ================================================================== *)
(** ** Hash navigation in [App] *)

Module App.

Import JS.

(** The three sections that [Main] renders, one per ref. *)
Inductive SectionId := home | about | contact.

(** What a property read on the object literal [map] can yield besides
    [undefined]: one of the three refs, or a member inherited from
    [Object.prototype]. *)
Inductive property :=
| Ref (s : SectionId)
| Inherited.

Definition objectPrototypeKeys : list jsstring :=
  map lit
    ["constructor"; "__proto__"; "hasOwnProperty"; "isPrototypeOf";
     "propertyIsEnumerable"; "toLocaleString"; "toString"; "valueOf";
     "__defineGetter__"; "__defineSetter__"; "__lookupGetter__";
     "__lookupSetter__"]%string.

(** [map[hash]]; [None] is [undefined]. *)
Definition map_lookup (key : jsstring) : option property :=
  if str_eqb key (lit "#home") then Some (Ref home)
  else if str_eqb key (lit "#about") then Some (Ref about)
  else if str_eqb key (lit "#contact") then Some (Ref contact)
  else if existsb (str_eqb key) objectPrototypeKeys then Some Inherited
  else None.

(** [useState(typeof window !== 'undefined' ? window.location.hash : "#home")];
    [None] stands for a rendering without [window]. *)
Definition initialHash (location_hash : option jsstring) : jsstring :=
  match location_hash with
  | Some h => h
  | None => lit "#home"
  end.

(** The [hash] state and the scroll requests issued so far. *)
Record Nav := mkNav {
  hash : jsstring;
  scrolled : list SectionId
}.

Section Controller.

(** Whether the element of a section is attached to its ref. *)
Variable current : SectionId -> bool.

(** [target.current]: reading a property of [undefined] throws. *)
Definition get_current (target : option property)
  : completion (option SectionId) :=
  match target with
  | None => Throw
  | Some (Ref s) => Normal (if current s then Some s else None)
  | Some Inherited => Normal None
  end.

(** The body of the second effect, for a given [hash]. *)
Definition scrollEffect (h : jsstring) : completion (list SectionId) :=
  let target := map_lookup h in
  match target with
  | None => Normal []
  | Some _ =>
      el <- get_current target ;;
      match el with
      | Some s => Normal [s]
      | None => Normal []
      end
  end.

(** First render in a browser whose address has fragment
    [location_hash], followed by the effects. *)
Definition mount (location_hash : jsstring) : completion Nav :=
  let h := initialHash (Some location_hash) in
  reqs <- scrollEffect h ;;
  Normal (mkNav h reqs).

(** A [hashchange] notification: [setHash] with an equal value leaves
    the state as it is and the effect, which depends on [hash], is
    not run again. *)
Definition onHash (location_hash : jsstring) (n : Nav) : completion Nav :=
  let h := or_str location_hash (lit "#home") in
  if str_eqb h (hash n)
  then Normal n
  else
    reqs <- scrollEffect h ;;
    Normal (mkNav h (scrolled n ++ reqs)).

(** A page visit: the fragment at load time, then the notifications. *)
Fixpoint notify (ls : list jsstring) (n : Nav) : completion Nav :=
  match ls with
  | [] => Normal n
  | l :: ls' => n' <- onHash l n ;; notify ls' n'
  end.

Definition visit (location_hash : jsstring) (ls : list jsstring)
  : completion Nav :=
  n <- mount location_hash ;; notify ls n.

End Controller.

(** The fragments of the public addressing scheme. *)
Definition anchor_of (s : SectionId) : jsstring :=
  match s with
  | home => lit "#home"
  | about => lit "#about"
  | contact => lit "#contact"
  end.

Definition known_fragments : list jsstring :=
  [[]; lit "#home"; lit "#about"; lit "#contact"].

(** [Main] renders the three sections unconditionally, each with its
    ref, so every ref is attached when the effects run. *)
Definition attached : SectionId -> bool := fun _ => true.

End App.

(* ================================================================== *)
(** ** What the contact form renders *)

Module FormView.

Import JS ContactForm.

(** A JSX child as the source computes it with [&&]: a boolean, a string
    or an element (given by its text). *)
Inductive child :=
| CBool (b : bool)
| CText (s : jsstring)
| CElement (text : jsstring).

Definition child_truthy (c : child) : bool :=
  match c with
  | CBool b => b
  | CText [] => false
  | CText (_ :: _) => true
  | CElement _ => true
  end.

Definition child_and (a b : child) : child := if child_truthy a then b else a.

(** The text a child puts on the page: booleans put nothing, a string
    puts itself. *)
Definition rendered (c : child) : jsstring :=
  match c with
  | CBool _ => []
  | CText s => s
  | CElement text => text
  end.

Definition emailHintText : jsstring := lit "Please enter a valid email.".

(** "Thanks — we’ll be in touch shortly." *)
Definition successText : jsstring :=
  lit "Thanks " ++ [8212%N] ++ lit " we" ++ [8217%N]
      ++ lit "ll be in touch shortly.".

Definition errorText : jsstring :=
  lit "Something went wrong. Please try again.".

(** "Sending…" *)
Definition sendingLabel : jsstring := lit "Sending" ++ [8230%N].

Definition sendLabel : jsstring := lit "Send message".

Definition enabledClass : jsstring := lit "bg-gray-900 hover:bg-gray-800".

Definition disabledClass : jsstring := lit "bg-gray-300 cursor-not-allowed".

(** The state-dependent parts of the [<form>] that [ContactForm]
    returns: the four controlled inputs, the hint under the email input,
    the button and the two notes beside it. *)
Record View := mkView {
  nameInput : jsstring;
  emailInput : jsstring;
  orgInput : jsstring;
  messageInput : jsstring;
  emailHint : child;
  buttonDisabled : bool;
  buttonClass : jsstring;
  buttonLabel : jsstring;
  successNote : child;
  errorNote : child
}.

Definition render (c : Component) : View :=
  let st := state c in
  let ok := emailOk st in
  let can := canSubmit st (status c) in
  mkView
    (name st) (email st) (org st) (message st)
    (child_and (child_and (CBool (negb ok)) (CText (email st)))
               (CElement emailHintText))
    (negb (truthy can))
    (lit "px-5 py-3 rounded-xl font-medium text-white transition "
       ++ (if truthy can then enabledClass else disabledClass))
    (if status_eqb (status c) sending then sendingLabel else sendLabel)
    (child_and (CBool (status_eqb (status c) success)) (CElement successText))
    (child_and (CBool (status_eqb (status c) error)) (CElement errorText)).

(** [Field]: the label, then [required && <span> *</span>]; [required]
    is [None] where the attribute is left out. *)
Definition FieldLabel (label : jsstring) (required : option bool) : jsstring :=
  label ++
  match required with
  | Some true => lit " *"
  | _ => []
  end.

(** The [label] and [required] that [ContactForm] passes to the [Field]
    around each input. *)
Definition fieldLabel (f : Field) : jsstring :=
  match f with
  | FName => lit "Name"
  | FEmail => lit "Email"
  | FOrg => lit "Organization"
  | FMessage => lit "How can we help?"
  end.

Definition fieldRequired (f : Field) : option bool :=
  match f with
  | FName => Some true
  | FEmail => Some true
  | FOrg => None
  | FMessage => Some true
  end.

(** Whether an event is a submit action, and whether it is a settlement
    of the submission operation. *)
Definition is_submit (e : Event) : bool :=
  match e with
  | Submit => true
  | _ => false
  end.

Definition is_settle (e : Event) : bool :=
  match e with
  | Settle _ => true
  | _ => false
  end.

End FormView.

(* ================================================================== *)
(** ** The links of the page *)

Module Page.

Import JS App.

(** The [href] of every [<a>] of a component, in source order. *)
Definition Header_hrefs : list jsstring :=
  [lit "#home"; lit "#home"; lit "#about"; lit "#contact"].

Definition Hero_hrefs : list jsstring := [lit "#contact"; lit "#about"].

(** One link per card, the cards being mapped from a three-element
    array. *)
Definition HowItWorks_cards : list jsstring :=
  [lit "Baseline"; lit "Scenarios"; lit "Decision"].

Definition HowItWorks_hrefs : list jsstring :=
  map (fun _ => lit "#contact") HowItWorks_cards.

Definition DigitalTwinTeaser_hrefs : list jsstring := [lit "#contact"].

Definition CTASection_hrefs : list jsstring := [lit "#contact"].

Definition About_hrefs : list jsstring := [lit "#contact"; lit "#home"].

Definition Contact_hrefs : list jsstring := [lit "#contact"].

Definition Footer_hrefs : list jsstring := [lit "#contact"; lit "#about"].

Definition hrefs : list jsstring :=
  Header_hrefs ++ Hero_hrefs ++ HowItWorks_hrefs ++ DigitalTwinTeaser_hrefs
    ++ CTASection_hrefs ++ About_hrefs ++ Contact_hrefs ++ Footer_hrefs.

(** The [id] that [Main] gives the section carrying each ref. *)
Definition section_id (s : SectionId) : jsstring :=
  match s with
  | home => lit "home"
  | about => lit "about"
  | contact => lit "contact"
  end.

End Page.

(* ================================================================== *)
(** ** The matcher decides the language *)

Section RegexFacts.

Import JS Regex.

Lemma app_nil_both (A : Type) (x y : list A) : x ++ y = [] -> x = [] /\ y = [].
Proof. destruct x; simpl; intros H; [auto | discriminate]. Qed.

Lemma nullable_matches r : nullable r = true <-> matches r [].
Proof.
  split.
  - induction r; simpl; intros H; try discriminate.
    + constructor.
    + apply andb_true_iff in H as [H1 H2].
      change (@nil code_unit) with (@nil code_unit ++ []).
      constructor; auto.
    + apply orb_true_iff in H as [H|H]; [apply MAltL | apply MAltR]; auto.
    + constructor.
  - intros H. remember (@nil code_unit) as s eqn:E.
    induction H; simpl; try discriminate; auto.
    + apply app_nil_both in E as [-> ->].
      rewrite IHmatches1, IHmatches2; auto.
    + rewrite IHmatches; auto.
    + rewrite IHmatches; auto using orb_true_r.
Qed.

(** A non-empty match of [r*] starts with a non-empty match of [r]. *)
Lemma star_cons r c s :
  matches (Star r) (c :: s) ->
  exists s1 s2, s = s1 ++ s2 /\ matches r (c :: s1) /\ matches (Star r) s2.
Proof.
  intros H.
  remember (Star r) as r' eqn:Er. remember (c :: s) as x eqn:Ex.
  revert c s Ex.
  induction H; intros c' s' Ex; try discriminate.
  injection Er as <-.
  destruct s1 as [|d s1]; simpl in Ex.
  - apply IHmatches2; auto.
  - injection Ex as -> <-. exists s1, s2. auto.
Qed.

Lemma matches_Seq_inv r1 r2 s :
  matches (Seq r1 r2) s ->
  exists s1 s2, s = s1 ++ s2 /\ matches r1 s1 /\ matches r2 s2.
Proof. intros H. inversion H; subst. eauto. Qed.

Lemma matches_Alt_inv r1 r2 s :
  matches (Alt r1 r2) s -> matches r1 s \/ matches r2 s.
Proof. intros H. inversion H; subst; auto. Qed.

Lemma matches_cons_app r1 r2 c s1 s2 :
  matches r1 (c :: s1) -> matches r2 s2 -> matches (Seq r1 r2) (c :: s1 ++ s2).
Proof.
  intros H1 H2. change (c :: s1 ++ s2) with ((c :: s1) ++ s2).
  constructor; assumption.
Qed.

Lemma deriv_matches r : forall c s, matches (deriv c r) s <-> matches r (c :: s).
Proof.
  induction r; intros c' s; simpl.
  - split; intros H; inversion H.
  - split; intros H; inversion H.
  - destruct (N.eqb_spec c' c) as [->|Hne].
    + split; intros H; inversion H; subst; constructor.
    + split; intros H; inversion H; subst; congruence.
  - destruct (isLineTerminator c') eqn:Hlt.
    + split; intros H; inversion H; subst; congruence.
    + split; intros H; inversion H; subst; constructor; auto.
  - destruct (nullable r1) eqn:Hn.
    + split; intros H.
      * apply matches_Alt_inv in H as [H | H].
        -- apply matches_Seq_inv in H as (s1 & s2 & -> & Ha & Hb).
           apply matches_cons_app; auto. apply IHr1; auto.
        -- apply IHr2 in H. apply nullable_matches in Hn.
           change (c' :: s) with ([] ++ c' :: s).
           constructor; auto.
      * apply matches_Seq_inv in H as (s1 & s2 & E & Ha & Hb).
        destruct s1 as [|d s1]; simpl in E.
        -- subst s2. apply MAltR. apply IHr2; auto.
        -- injection E as <- ->. apply MAltL.
           constructor; auto. apply IHr1; auto.
    + split; intros H.
      * apply matches_Seq_inv in H as (s1 & s2 & -> & Ha & Hb).
        apply matches_cons_app; auto. apply IHr1; auto.
      * apply matches_Seq_inv in H as (s1 & s2 & E & Ha & Hb).
        destruct s1 as [|d s1]; simpl in E.
        -- apply nullable_matches in Ha. congruence.
        -- injection E as <- ->. constructor; auto. apply IHr1; auto.
  - split; intros H; apply matches_Alt_inv in H as [H | H];
      solve [apply MAltL; apply IHr1; auto | apply MAltR; apply IHr2; auto].
  - split; intros H.
    + apply matches_Seq_inv in H as (s1 & s2 & -> & Ha & Hb).
      change (c' :: s1 ++ s2) with ((c' :: s1) ++ s2).
      constructor; auto. apply IHr; auto.
    + apply star_cons in H as (s1 & s2 & -> & Ha & Hb).
      constructor; auto. apply IHr; auto.
Qed.

Lemma match_at_start_spec r : forall s,
  match_at_start r s = true <->
  exists m rest, s = m ++ rest /\ matches r m.
Proof.
  intros s. revert r.
  induction s as [|c s IH]; intros r; simpl.
  - rewrite orb_false_r, nullable_matches. split.
    + intros H. exists [], []. auto.
    + intros (m & rest & E & H). symmetry in E.
      apply app_nil_both in E as [-> _]. auto.
  - rewrite orb_true_iff, nullable_matches, IH. split.
    + intros [H | (m & rest & -> & H)].
      * exists [], (c :: s). auto.
      * exists (c :: m), rest. split; auto. apply deriv_matches; auto.
    + intros (m & rest & E & H). destruct m as [|d m]; simpl in E.
      * left; auto.
      * injection E as <- ->. right. exists m, rest.
        split; auto. apply deriv_matches; auto.
Qed.

Lemma test_spec r : forall s,
  test r s = true <->
  exists pre m post, s = pre ++ m ++ post /\ matches r m.
Proof.
  induction s as [|c s IH]; cbn [test].
  - rewrite orb_false_r, match_at_start_spec. split.
    + intros (m & rest & E & H). exists [], m, rest. auto.
    + intros (pre & m & post & E & H). symmetry in E.
      apply app_nil_both in E as [-> E]. exists m, post. auto.
  - rewrite orb_true_iff, match_at_start_spec, IH. split.
    + intros [(m & rest & E & H) | (pre & m & post & -> & H)].
      * exists [], m, rest. auto.
      * exists (c :: pre), m, post. auto.
    + intros (pre & m & post & E & H). destruct pre as [|d pre]; simpl in E.
      * left. exists m, post. auto.
      * injection E as <- ->. right. exists pre, m, post. auto.
Qed.

End RegexFacts.

(* ================================================================== *)
(** ** The email check *)

Section EmailFacts.

Import JS Regex ContactForm.

Lemma star_dot_iff s :
  matches (Star Dot) s <-> Forall (fun c => isLineTerminator c = false) s.
Proof.
  split.
  - intros H. remember (Star Dot) as r eqn:E.
    induction H; try discriminate.
    + constructor.
    + injection E as ->. apply Forall_app. split; auto.
      inversion H; subst. repeat constructor. assumption.
  - induction 1 as [|c s Hc _ IH].
    + constructor.
    + change (c :: s) with ([c] ++ s). constructor; auto.
      constructor. exact Hc.
Qed.

Lemma plus_dot_iff s : matches (Plus Dot) s <-> dotRun s.
Proof.
  unfold Plus, dotRun. split.
  - intros H. apply matches_Seq_inv in H as (s1 & s2 & -> & H1 & H2).
    inversion H1; subst. apply star_dot_iff in H2. simpl.
    split; [discriminate | constructor; assumption].
  - intros [Hne Hall]. destruct s as [|c s]; [congruence|].
    inversion Hall; subst.
    change (c :: s) with ([c] ++ s). constructor.
    + constructor. assumption.
    + apply star_dot_iff. assumption.
Qed.

Lemma matches_Chr_inv c s : matches (Chr c) s -> s = [c].
Proof. intros H. inversion H; reflexivity. Qed.

Lemma emailRe_matches m :
  matches emailRe m <->
  exists a b c, m = a ++ 64%N :: b ++ 46%N :: c /\
                dotRun a /\ dotRun b /\ dotRun c.
Proof.
  unfold emailRe. split.
  - intros H.
    apply matches_Seq_inv in H as (a & m1 & -> & Ha & H).
    apply matches_Seq_inv in H as (x & m2 & -> & Hx & H).
    apply matches_Seq_inv in H as (b & m3 & -> & Hb & H).
    apply matches_Seq_inv in H as (y & c & -> & Hy & Hc).
    apply matches_Chr_inv in Hx, Hy. subst x y.
    exists a, b, c. simpl. rewrite <- !plus_dot_iff. auto.
  - intros (a & b & c & -> & Ha & Hb & Hc).
    apply plus_dot_iff in Ha, Hb, Hc.
    constructor; auto.
    change (64%N :: b ++ 46%N :: c) with ([64%N] ++ b ++ [46%N] ++ c).
    repeat (constructor; auto).
Qed.

Lemma test_emailRe_iff s : test emailRe s = true <-> emailShape s.
Proof.
  rewrite test_spec. unfold emailShape. split.
  - intros (pre & m & post & -> & H).
    apply emailRe_matches in H as (a & b & c & -> & Ha & Hb & Hc).
    exists pre, a, b, c, post. split; auto.
    rewrite <- !app_assoc. simpl. rewrite <- !app_assoc. reflexivity.
  - intros (pre & a & b & c & post & -> & Ha & Hb & Hc).
    exists pre, (a ++ 64%N :: b ++ 46%N :: c), post. split.
    + rewrite <- !app_assoc. simpl. rewrite <- !app_assoc. reflexivity.
    + apply emailRe_matches. exists a, b, c. auto.
Qed.

End EmailFacts.

(* ================================================================== *)
(** ** Validation and eligibility *)

Section Eligibility.

Import JS ContactForm.

Lemma canSubmit_truthy_iff (st : FormState) (s : Status) :
  truthy (canSubmit st s) = true <->
  name st <> [] /\ message st <> [] /\ emailOk st = true /\ s <> sending.
Proof.
  destruct st as [n e o m]. unfold canSubmit. simpl. split.
  - intros H.
    destruct n, (emailOk (mkForm _ e o m)), m, s; simpl in H;
      try discriminate; repeat split; discriminate.
  - intros (Hn & Hm & He & Hs). rewrite He.
    destruct n, m, s; simpl; congruence.
Qed.

(** C1: the value of [canSubmit] is falsy exactly when the name is empty,
    or the message is empty, or the email fails the check, or the status
    is [sending]; it is truthy in every other case, and the organization
    does not enter into it. *)
Theorem canSubmit_falsy_iff (st : FormState) (s : Status) :
  (truthy (canSubmit st s) = false <->
     name st = [] \/ message st = [] \/ emailOk st = false \/ s = sending) /\
  (truthy (canSubmit st s) = true <->
     name st <> [] /\ message st <> [] /\ emailOk st = true /\ s <> sending) /\
  (forall o, canSubmit (mkForm (name st) (email st) o (message st)) s
             = canSubmit st s).
Proof.
  split; [|split; [apply canSubmit_truthy_iff | reflexivity]].
  pose proof (canSubmit_truthy_iff st s) as T.
  destruct (truthy (canSubmit st s)).
  - split; [discriminate|]. intros H.
    destruct (proj1 T eq_refl) as (Hn & Hm & He & Hs).
    decompose [or] H; congruence.
  - split; [intros _|reflexivity].
    destruct (name st) as [|x n] eqn:En; [auto|].
    destruct (message st) as [|y m] eqn:Em; [auto|].
    destruct (emailOk st) eqn:Ee; [|auto].
    destruct s; try (right; right; right; reflexivity);
      assert (false = true) by (apply T; repeat split; discriminate);
      discriminate.
Qed.

(** C2, as the code has it: the literal is not anchored and its first
    run may hold dots and at-signs, so a string passes exactly when it
    contains a run, an at-sign, a run, a dot and a run, the runs being
    non-empty and free of line terminators.  "a@b.c" passes; "a@b",
    "abc" and "a@.c" do not. *)
Theorem emailOk_iff_emailShape :
  (forall st, emailOk st = true <-> emailShape (email st)) /\
  emailOk (mkForm [] (lit "a@b.c") [] []) = true /\
  emailOk (mkForm [] (lit "a@b") [] []) = false /\
  emailOk (mkForm [] (lit "abc") [] []) = false /\
  emailOk (mkForm [] (lit "a@.c") [] []) = false.
Proof.
  split; [|repeat split; vm_compute; reflexivity].
  intros st. unfold emailOk. apply test_emailRe_iff.
Qed.

(** C2 as stated fails twice: "a@.c" is rejected, and "a.b@c.d", which
    the stated shape excludes (a dot before the at-sign), is accepted. *)
Lemma emailOk_stated_shape_counterexample :
  emailOk (mkForm [] (lit "a@.c") [] []) = false /\
  emailOk (mkForm [] (lit "a.b@c.d") [] []) = true /\
  ~ spec_email_shape (lit "a.b@c.d").
Proof.
  split; [vm_compute; reflexivity|].
  split; [vm_compute; reflexivity|].
  intros (a & b & c & E & Ha & Hall & _).
  destruct a as [|x a]; [congruence|].
  vm_compute in E. injection E as Hx E.
  destruct a as [|y a]; [discriminate|].
  injection E as Hy E.
  inversion Hall as [|? ? _ Hrest]; subst.
  inversion Hrest as [|? ? [Hdot _] _]; subst.
  apply Hdot. reflexivity.
Qed.

End Eligibility.

(* ================================================================== *)
(** ** The submission life cycle *)

Section LifeCycle.

Import JS ContactForm.

Lemma run_app c es es' : run c (es ++ es') = run (run c es) es'.
Proof. apply fold_left_app. Qed.

Lemma run_cons c e es : run c (e :: es) = run (handle c e) es.
Proof. reflexivity. Qed.

Lemma eligible_not_sending st s :
  truthy (canSubmit st s) = true -> s <> sending.
Proof. intros H. apply canSubmit_truthy_iff in H. tauto. Qed.

Lemma sending_not_eligible st :
  truthy (canSubmit st sending) = false.
Proof.
  destruct (truthy (canSubmit st sending)) eqn:E; [|reflexivity].
  apply eligible_not_sending in E. congruence.
Qed.

Lemma onSubmit_eligible c :
  truthy (canSubmit (state c) (status c)) = true ->
  onSubmit c = mkComponent (state c) sending (inflight c ++ [state c])
                           (S (calls c)) (console c).
Proof. intros H. unfold onSubmit. rewrite H. reflexivity. Qed.

Lemma onSubmit_refused c :
  truthy (canSubmit (state c) (status c)) = false -> onSubmit c = c.
Proof. intros H. unfold onSubmit. rewrite H. reflexivity. Qed.

(** *** One submission in flight at a time *)

Lemma mounted_one_cycle : one_cycle_at_a_time mounted.
Proof. reflexivity. Qed.

Lemma handle_one_cycle c e :
  one_cycle_at_a_time c -> one_cycle_at_a_time (handle c e).
Proof.
  unfold one_cycle_at_a_time. intros Hc. destruct e as [f v| |o]; simpl.
  - exact Hc.
  - destruct (truthy (canSubmit (state c) (status c))) eqn:He.
    + rewrite (onSubmit_eligible _ He). simpl.
      apply eligible_not_sending in He.
      destruct (status c); try congruence; rewrite Hc; eexists; reflexivity.
    + rewrite (onSubmit_refused _ He). exact Hc.
  - unfold resume. destruct (status c) eqn:Hs.
    + rewrite Hc, Hs. exact Hc.
    + destruct Hc as [captured Hc]. rewrite Hc. destruct o; reflexivity.
    + rewrite Hc, Hs. exact Hc.
    + rewrite Hc, Hs. exact Hc.
Qed.

Lemma run_one_cycle es : forall c,
  one_cycle_at_a_time c -> one_cycle_at_a_time (run c es).
Proof.
  induction es as [|e es IH]; intros c Hc; [exact Hc|].
  rewrite run_cons. apply IH, handle_one_cycle, Hc.
Qed.

Lemma reachable_one_cycle es : one_cycle_at_a_time (run mounted es).
Proof. apply run_one_cycle, mounted_one_cycle. Qed.

Lemma nothing_inflight c :
  one_cycle_at_a_time c -> status c <> sending -> inflight c = [].
Proof.
  unfold one_cycle_at_a_time. destruct (status c); auto. congruence.
Qed.

Lemma one_inflight c :
  one_cycle_at_a_time c -> status c = sending ->
  exists captured, inflight c = [captured].
Proof. unfold one_cycle_at_a_time. intros H Hs. rewrite Hs in H. exact H. Qed.

(** *** Edits leave everything but the fields alone *)

Lemma run_changes edits : forall c,
  status (run c (changes edits)) = status c /\
  inflight (run c (changes edits)) = inflight c /\
  calls (run c (changes edits)) = calls c /\
  console (run c (changes edits)) = console c.
Proof.
  induction edits as [|[f v] edits IH]; intros c; [auto|].
  unfold changes. simpl map. rewrite run_cons.
  destruct (IH (handle c (Change f v))) as (H1 & H2 & H3 & H4).
  unfold changes in *. rewrite H1, H2, H3, H4. auto.
Qed.

End LifeCycle.

(* ================================================================== *)
(** ** Properties of the contact form *)

Section FormProperties.

Import JS ContactForm.

(** C3: from every state the form can reach in which [canSubmit] is
    truthy, a submit followed by the completion of the submission
    operation takes the status to [sending] and then to [success]; the
    submit itself keeps the fields and starts one operation, and on
    [success] the four fields are empty.  From a status of [idle] the
    path is idle, sending, success. *)
Theorem submit_then_success (es : list Event) :
  let c := run mounted es in
  truthy (canSubmit (state c) (status c)) = true ->
  statuses c [Submit; Settle Completed] = [status c; sending; success] /\
  state (run c [Submit]) = state c /\
  calls (run c [Submit]) = S (calls c) /\
  state (run c [Submit; Settle Completed]) = emptyForm.
Proof.
  intros c He.
  assert (Hin : inflight c = []).
  { apply nothing_inflight;
      [apply reachable_one_cycle | eapply eligible_not_sending, He]. }
  unfold run. simpl. rewrite (onSubmit_eligible _ He).
  unfold resume. simpl. rewrite Hin. simpl. auto.
Qed.

Lemma submit_then_success_janeDoe :
  let c := run mounted (typing janeDoe) in
  statuses c [Submit; Settle Completed] = [idle; sending; success] /\
  state (run c [Submit]) = janeDoe /\
  calls (run c [Submit]) = 1 /\
  state (run c [Submit; Settle Completed]) = emptyForm.
Proof.
  apply (submit_then_success (typing janeDoe)).
  vm_compute. reflexivity.
Defined.

(** C4: from every reachable state in which [canSubmit] is truthy, a
    submit followed by a fault of the submission operation takes the
    status to [sending] and then to [error], and the four fields are the
    ones submitted; the [catch] block changes the status and nothing
    else of the form. *)
Theorem submit_then_fault (es : list Event) :
  let c := run mounted es in
  truthy (canSubmit (state c) (status c)) = true ->
  statuses c [Submit; Settle Faulted] = [status c; sending; error] /\
  state (run c [Submit; Settle Faulted]) = state c /\
  (forall c0 : Component,
      state (resume Faulted c0) = state c0 /\
      calls (resume Faulted c0) = calls c0 /\
      console (resume Faulted c0) = console c0).
Proof.
  intros c He.
  assert (Hin : inflight c = []).
  { apply nothing_inflight;
      [apply reachable_one_cycle | eapply eligible_not_sending, He]. }
  unfold run. simpl. rewrite (onSubmit_eligible _ He).
  unfold resume. simpl. rewrite Hin. simpl.
  repeat split; auto; destruct (inflight c0); reflexivity.
Qed.

Lemma submit_then_fault_janeDoe :
  let c := run mounted (typing janeDoe) in
  statuses c [Submit; Settle Faulted] = [idle; sending; error] /\
  state (run c [Submit; Settle Faulted]) = janeDoe.
Proof.
  destruct (submit_then_fault (typing janeDoe)) as (H1 & H2 & _).
  - vm_compute. reflexivity.
  - split; [exact H1 | exact H2].
Defined.

(** C5: a submit while [canSubmit] is falsy, which is the case whenever
    the status is [sending], leaves the component as it was: same fields,
    same status, no further submission operation started, nothing
    suspended or logged. *)
Theorem submit_refused_is_noop (c : Component) :
  truthy (canSubmit (state c) (status c)) = false \/ status c = sending ->
  handle c Submit = c.
Proof.
  intros [H | H]; simpl; apply onSubmit_refused; [exact H|].
  rewrite H. apply sending_not_eligible.
Qed.

Lemma submit_refused_while_sending :
  let c := run mounted (typing janeDoe ++ [Submit]) in
  status c = sending /\ calls c = 1 /\
  handle c Submit = c /\ calls (handle c Submit) = 1.
Proof.
  assert (H : handle (run mounted (typing janeDoe ++ [Submit])) Submit
              = run mounted (typing janeDoe ++ [Submit])).
  { apply submit_refused_is_noop. right. vm_compute. reflexivity. }
  repeat split; try exact H; vm_compute; reflexivity.
Defined.

(** C8: along every sequence of edits, submits and settlements from the
    first render, an event either keeps the status or moves it from
    [idle], [success] or [error] to [sending] (an accepted submit) or
    from [sending] to [success] or [error] (the settlement); nothing
    leads back to [idle], and [success] and [error] are entered from
    [sending] only. *)
Theorem status_life_cycle (es : list Event) (e : Event) :
  let c := run mounted es in
  let c' := handle c e in
  transition (status c) e (status c') /\
  (status c' = status c \/ cycle_step (status c) (status c') = true).
Proof.
  intros c c'. subst c'.
  pose proof (reachable_one_cycle es) as Hinv. fold c in Hinv.
  destruct e as [f v| |o]; simpl.
  - split; [constructor | auto].
  - destruct (truthy (canSubmit (state c) (status c))) eqn:He.
    + rewrite (onSubmit_eligible _ He). simpl.
      apply eligible_not_sending in He.
      split; [constructor; exact He|].
      right. destruct (status c); try reflexivity. congruence.
    + rewrite (onSubmit_refused _ He). split; [constructor | auto].
  - destruct (status c) eqn:Hs.
    2:{ destruct (one_inflight _ Hinv Hs) as [captured Hc].
        unfold resume. rewrite Hc.
        destruct o; simpl; split; auto; constructor. }
    all: assert (Hin : inflight c = [])
        by (apply nothing_inflight; [exact Hinv | congruence]).
    all: unfold resume; rewrite Hin, Hs.
    all: split; [constructor; discriminate | auto].
Qed.

(** C9: an edit of one field sets that field to the new value and
    leaves the other three fields, the status, the suspended submission
    and the log as they were; [canSubmit] afterwards is the function of
    the new fields and the status. *)
Theorem change_touches_one_field (c : Component) (f : Field) (v : jsstring) :
  let c' := handle c (Change f v) in
  status c' = status c /\ inflight c' = inflight c /\
  calls c' = calls c /\ console c' = console c /\
  match f with
  | FName =>
      state c' = mkForm v (email (state c)) (org (state c)) (message (state c))
  | FEmail =>
      state c' = mkForm (name (state c)) v (org (state c)) (message (state c))
  | FOrg =>
      state c' = mkForm (name (state c)) (email (state c)) v (message (state c))
  | FMessage =>
      state c' = mkForm (name (state c)) (email (state c)) (org (state c)) v
  end /\
  canSubmit (state c') (status c')
    = canSubmit (setField f v (state c)) (status c).
Proof. destruct f; simpl; repeat split; reflexivity. Qed.

(** C10: when the submission in flight completes, the four fields are
    emptied whatever they hold, so whatever was typed while the status
    was [sending] is gone on [success]; what is logged is the state that
    was submitted. *)
Theorem edits_while_sending_are_discarded
    (es : list Event) (edits : list (Field * jsstring)) :
  let c := run mounted es in
  status c = sending ->
  let c' := run c (changes edits ++ [Settle Completed]) in
  state c' = emptyForm /\ status c' = success /\
  (exists captured,
      inflight c = [captured] /\ console c' = console c ++ [captured]) /\
  (forall c0 x rest, inflight c0 = x :: rest ->
                     state (resume Completed c0) = emptyForm).
Proof.
  intros c Hs c'. subst c'.
  destruct (one_inflight _ (reachable_one_cycle es) Hs) as [captured Hc].
  fold c in Hc.
  destruct (run_changes edits c) as (_ & H2 & _ & H4).
  rewrite run_app. simpl. unfold resume. rewrite H2, Hc, H4.
  simpl. repeat split; eauto.
  intros c0 x rest ->. reflexivity.
Qed.

Lemma edits_while_sending_are_discarded_janeDoe :
  let c := run mounted (typing janeDoe ++ [Submit]) in
  let c' := run c (changes [(FMessage, lit "One more thing")]
                   ++ [Settle Completed]) in
  state c' = emptyForm /\ status c' = success.
Proof.
  destruct (edits_while_sending_are_discarded
              (typing janeDoe ++ [Submit])
              [(FMessage, lit "One more thing")]) as (H1 & H2 & _).
  - vm_compute. reflexivity.
  - split; [exact H1 | exact H2].
Defined.

End FormProperties.

(* ================================================================== *)
(** ** Properties of the navigation *)

Section Navigation.

Import JS App.

Variable current : SectionId -> bool.

Lemma str_eqb_eq a : forall b, str_eqb a b = true <-> a = b.
Proof.
  induction a as [|x a IH]; intros [|y b]; simpl;
    try (split; [discriminate | congruence]).
  - split; reflexivity.
  - rewrite andb_true_iff, N.eqb_eq, IH. split.
    + intros [-> ->]. reflexivity.
    + intros E. injection E as -> ->. auto.
Qed.

Lemma map_lookup_anchor s : map_lookup (anchor_of s) = Some (Ref s).
Proof. destruct s; vm_compute; reflexivity. Qed.

Lemma map_lookup_Ref h s : map_lookup h = Some (Ref s) -> h = anchor_of s.
Proof.
  unfold map_lookup.
  destruct (str_eqb h (lit "#home")) eqn:E1;
    [apply str_eqb_eq in E1; intros [= <-]; exact E1|].
  destruct (str_eqb h (lit "#about")) eqn:E2;
    [apply str_eqb_eq in E2; intros [= <-]; exact E2|].
  destruct (str_eqb h (lit "#contact")) eqn:E3;
    [apply str_eqb_eq in E3; intros [= <-]; exact E3|].
  destruct (existsb (str_eqb h) objectPrototypeKeys); discriminate.
Qed.

Lemma map_lookup_other h :
  (forall s, h <> anchor_of s) ->
  map_lookup h = None \/ map_lookup h = Some Inherited.
Proof.
  intros Hh. destruct (map_lookup h) as [[s|]|] eqn:E; auto.
  apply map_lookup_Ref in E. destruct (Hh s E).
Qed.

Lemma scrollEffect_anchor s :
  scrollEffect current (anchor_of s)
  = Normal (if current s then [s] else []).
Proof.
  unfold scrollEffect. rewrite map_lookup_anchor. simpl.
  destruct (current s); reflexivity.
Qed.

Lemma scrollEffect_other h :
  (forall s, h <> anchor_of s) -> scrollEffect current h = Normal [].
Proof.
  intros Hh. unfold scrollEffect.
  destruct (map_lookup_other Hh) as [-> | ->]; reflexivity.
Qed.

Lemma scrollEffect_cases h :
  scrollEffect current h = Normal [] \/
  exists s, h = anchor_of s /\ scrollEffect current h = Normal [s].
Proof.
  unfold scrollEffect.
  destruct (map_lookup h) as [[s|]|] eqn:E; simpl; auto.
  apply map_lookup_Ref in E. destruct (current s); eauto.
Qed.

Lemma onHash_hash l n :
  exists n', onHash current l n = Normal n' /\
             hash n' = or_str l (lit "#home").
Proof.
  unfold onHash.
  destruct (str_eqb (or_str l (lit "#home")) (hash n)) eqn:E.
  - apply str_eqb_eq in E. eauto.
  - destruct (scrollEffect_cases (or_str l (lit "#home")))
      as [-> | (s & _ & ->)]; simpl; eauto.
Qed.

Lemma notify_returns ls : forall n, exists n', notify current ls n = Normal n'.
Proof.
  induction ls as [|l ls IH]; intros n; simpl; [eauto|].
  destruct (onHash_hash l n) as (n1 & -> & _). simpl. apply IH.
Qed.

Lemma mount_returns l : exists n, mount current l = Normal n.
Proof.
  unfold mount. simpl.
  destruct (scrollEffect_cases l) as [-> | (s & _ & ->)]; simpl; eauto.
Qed.

Lemma known_fragment_resolves l :
  In l known_fragments -> exists s, or_str l (lit "#home") = anchor_of s.
Proof.
  simpl. intros [<- | [<- | [<- | [<- | []]]]];
    [exists home | exists home | exists about | exists contact]; reflexivity.
Qed.

Lemma unknown_fragment_no_anchor l :
  ~ In l known_fragments ->
  or_str l (lit "#home") = l /\ forall s, l <> anchor_of s.
Proof.
  simpl. intros H. split.
  - destruct l; [tauto | reflexivity].
  - intros s ->. destruct s; tauto.
Qed.

(** What the first render does when the address has no fragment: the
    state keeps the empty string and nothing is scrolled. *)
Lemma mount_without_fragment : mount current [] = Normal (mkNav [] []).
Proof. reflexivity. Qed.

(** C6, as the code has it.  With the three sections attached: a first
    render at "#home", "#about" or "#contact" issues one scroll request,
    for that section; a notification with a fragment among the empty
    one and these three resolves it to a section (the empty one to home)
    and issues one request for it when the resolved fragment differs
    from the [hash] held, none when it is the same; a fragment outside
    the four issues no request, at the first render or later. *)
Theorem scroll_requests :
  (forall s, current s = true) ->
  (forall s, mount current (anchor_of s) = Normal (mkNav (anchor_of s) [s])) /\
  (forall l n, In l known_fragments ->
     exists s, or_str l (lit "#home") = anchor_of s /\
       onHash current l n =
         Normal (if str_eqb (anchor_of s) (hash n) then n
                 else mkNav (anchor_of s) (scrolled n ++ [s]))) /\
  (forall l, ~ In l known_fragments ->
     mount current l = Normal (mkNav l []) /\
     forall n, exists n', onHash current l n = Normal n' /\
                          scrolled n' = scrolled n).
Proof.
  intros Hcur. split; [|split].
  - intros s. unfold mount. simpl.
    rewrite scrollEffect_anchor, Hcur. reflexivity.
  - intros l n Hl. destruct (known_fragment_resolves Hl) as [s Hs].
    exists s. split; [exact Hs|]. unfold onHash. rewrite Hs.
    destruct (str_eqb (anchor_of s) (hash n)); [reflexivity|].
    rewrite scrollEffect_anchor, Hcur. reflexivity.
  - intros l Hl. destruct (unknown_fragment_no_anchor Hl) as [Hor Hno].
    split.
    + unfold mount. simpl. rewrite (scrollEffect_other Hno). reflexivity.
    + intros n. unfold onHash. rewrite Hor.
      destruct (str_eqb l (hash n)); [eauto|].
      rewrite (scrollEffect_other Hno). simpl.
      eexists. split; [reflexivity|]. simpl. apply app_nil_r.
Qed.

(** C7, as the code has it.  Whatever is attached, no visit throws;
    after a notification the [hash] held is the fragment reported, or
    "#home" when that is empty, so it is never empty but need not be one
    of the three anchors; a [hash] that is none of the three anchors
    issues no scroll request, and a request is only ever issued for the
    section whose anchor the [hash] is. *)
Theorem navigation_state :
  (forall l0 ls, exists n, visit current l0 ls = Normal n) /\
  (forall l n, exists n',
      onHash current l n = Normal n' /\
      hash n' = or_str l (lit "#home") /\ hash n' <> []) /\
  (forall h, (forall s, h <> anchor_of s) ->
             scrollEffect current h = Normal []) /\
  (forall h, scrollEffect current h = Normal [] \/
             exists s, h = anchor_of s /\ scrollEffect current h = Normal [s]).
Proof.
  split; [|split; [|split]].
  - intros l0 ls. unfold visit.
    destruct (mount_returns l0) as [n ->]. simpl. apply notify_returns.
  - intros l n. destruct (onHash_hash l n) as (n' & H1 & H2).
    exists n'. repeat split; auto. rewrite H2.
    destruct l; simpl; discriminate.
  - apply scrollEffect_other.
  - apply scrollEffect_cases.
Qed.

End Navigation.

Section NavigationExamples.

Import JS App.

Lemma scroll_requests_attached :
  mount attached (lit "#about") = Normal (mkNav (lit "#about") [about]) /\
  onHash attached (lit "#contact") (mkNav (lit "#about") [about])
    = Normal (mkNav (lit "#contact") [about; contact]) /\
  onHash attached (lit "#team") (mkNav (lit "#about") [about])
    = Normal (mkNav (lit "#team") [about]).
Proof.
  destruct (scroll_requests attached (fun s => eq_refl)) as (H1 & _ & _).
  split; [exact (H1 about)|].
  split; vm_compute; reflexivity.
Defined.

(** C6 as stated fails: the empty fragment is in the set, yet a
    notification with it on a page that holds "#home" issues no scroll
    request. *)
Lemma scroll_requests_counterexample :
  In [] known_fragments /\
  mount attached (lit "#home") = Normal (mkNav (lit "#home") [home]) /\
  onHash attached [] (mkNav (lit "#home") [home])
    = Normal (mkNav (lit "#home") [home]).
Proof. split; [left; reflexivity|]. split; vm_compute; reflexivity. Qed.

(** C7 as stated fails: after a notification with "#pricing" the [hash]
    held is "#pricing", which is none of the three anchors. *)
Lemma navigation_state_counterexample :
  exists n,
    visit attached (lit "#home") [lit "#pricing"] = Normal n /\
    hash n = lit "#pricing" /\
    forall s, hash n <> anchor_of s.
Proof.
  eexists. split; [vm_compute; reflexivity|]. simpl hash.
  split; [reflexivity|]. intros s. destruct s; discriminate.
Qed.

End NavigationExamples.

(* ================================================================== *)
(** ** Further properties of the email check *)

Section EmailProperties.

Import JS Regex ContactForm.

(** A search succeeds on every string that contains one it succeeds
    on. *)
Lemma test_extend r s p q : test r s = true -> test r (p ++ s ++ q) = true.
Proof.
  rewrite !test_spec. intros (pre & m & post & -> & H).
  exists (p ++ pre), m, (post ++ q). split; [|exact H].
  rewrite <- !app_assoc. reflexivity.
Qed.

Lemma emailRe_no_line_terminator m :
  matches emailRe m -> Forall (fun c => isLineTerminator c = false) m.
Proof.
  intros H. apply emailRe_matches in H
    as (a & b & c & -> & [_ Ha] & [_ Hb] & [_ Hc]).
  apply Forall_app. split; [exact Ha|]. constructor; [reflexivity|].
  apply Forall_app. split; [exact Hb|]. constructor; [reflexivity|exact Hc].
Qed.

Lemma emailRe_parts m :
  matches emailRe m ->
  exists a b c, m = a ++ 64%N :: b ++ 46%N :: c /\
                a <> [] /\ b <> [] /\ c <> [].
Proof.
  intros H. apply emailRe_matches in H
    as (a & b & c & -> & [Ha _] & [Hb _] & [Hc _]).
  exists a, b, c. auto.
Qed.

(** A piece free of [c] that occurs in [a ++ c :: b] lies within [a] or
    within [b]. *)
Lemma prefix_before (c : code_unit) m : forall a b post,
  a ++ c :: b = m ++ post -> ~ In c m -> exists q, a = m ++ q.
Proof.
  induction m as [|x m IH]; intros a b post E Hc.
  - exists a. reflexivity.
  - destruct a as [|y a]; simpl in E; injection E as -> E.
    + destruct Hc. left. reflexivity.
    + destruct (IH a b post E) as [q ->].
      * intros Hin. apply Hc. right. exact Hin.
      * exists q. reflexivity.
Qed.

Lemma piece_on_one_side (c : code_unit) m post : forall pre a b,
  a ++ c :: b = pre ++ m ++ post -> ~ In c m ->
  (exists q, a = pre ++ m ++ q) \/ (exists p, b = p ++ m ++ post).
Proof.
  induction pre as [|x pre IH]; intros a b E Hc.
  - left. simpl in *. eapply prefix_before; eassumption.
  - destruct a as [|y a]; simpl in E; injection E as -> E.
    + right. exists pre. exact E.
    + destruct (IH a b E Hc) as [[q ->] | [p ->]].
      * left. exists q. reflexivity.
      * right. exists p. reflexivity.
Qed.

Lemma test_emailRe_lines a b c :
  isLineTerminator c = true ->
  test emailRe (a ++ c :: b) = test emailRe a || test emailRe b.
Proof.
  intros Hc. apply eq_true_iff_eq.
  rewrite orb_true_iff. split.
  - rewrite !test_spec. intros (pre & m & post & E & H).
    assert (Hnot : ~ In c m).
    { intros Hin. apply emailRe_no_line_terminator in H.
      rewrite Forall_forall in H. apply H in Hin. congruence. }
    destruct (@piece_on_one_side c m post pre a b E Hnot) as [[q ->] | [p ->]];
      [left | right]; eauto.
  - intros [H | H].
    + apply (@test_extend emailRe a [] (c :: b)) in H. exact H.
    + apply (@test_extend emailRe b (a ++ [c]) []) in H.
      rewrite app_nil_r, <- app_assoc in H. exact H.
Qed.

Lemma test_emailRe_needs s :
  test emailRe s = true ->
  5 <= List.length s /\
  exists x y z, s = x ++ 64%N :: y ++ 46%N :: z /\
                x <> [] /\ y <> [] /\ z <> [].
Proof.
  rewrite test_spec. intros (pre & m & post & -> & H).
  apply emailRe_parts in H as (a & b & c & -> & Ha & Hb & Hc). split.
  - rewrite !length_app. simpl. rewrite !length_app. simpl.
    destruct a, b, c; simpl; try congruence; lia.
  - exists (pre ++ a), b, (c ++ post). repeat split; auto.
    + rewrite <- !app_assoc. simpl. rewrite <- !app_assoc. reflexivity.
    + destruct pre, a; simpl; congruence.
    + destruct c; simpl; congruence.
Qed.

(** X1: an email that passes has at least five characters and holds a
    non-empty part, an at-sign, a non-empty part, a dot and a non-empty
    part, in this order. *)
Theorem emailOk_needs (st : FormState) :
  emailOk st = true ->
  5 <= List.length (email st) /\
  exists x y z, email st = x ++ 64%N :: y ++ 46%N :: z /\
                x <> [] /\ y <> [] /\ z <> [].
Proof. unfold emailOk. apply test_emailRe_needs. Qed.

Lemma emailOk_needs_janeDoe :
  5 <= List.length (email janeDoe) /\
  exists x y z, email janeDoe = x ++ 64%N :: y ++ 46%N :: z /\
                x <> [] /\ y <> [] /\ z <> [].
Proof. apply (emailOk_needs janeDoe). vm_compute. reflexivity. Defined.

(** X2: on a string without line terminators the check is exactly this:
    a non-empty part, an at-sign, a non-empty part, a dot and a non-empty
    part. *)
Theorem emailOk_single_line (st : FormState) :
  Forall (fun c => isLineTerminator c = false) (email st) ->
  (emailOk st = true <->
   exists x y z, email st = x ++ 64%N :: y ++ 46%N :: z /\
                 x <> [] /\ y <> [] /\ z <> []).
Proof.
  intros Hline. unfold emailOk.
  split; [intros H; apply test_emailRe_needs, H|].
  intros (x & y & z & E & Hx & Hy & Hz).
  rewrite test_spec. exists [], (email st), []. split.
  - rewrite app_nil_r. reflexivity.
  - rewrite E in *. apply emailRe_matches. exists x, y, z.
    apply Forall_app in Hline as [Lx Hline].
    inversion Hline as [|? ? _ Hline']; subst.
    apply Forall_app in Hline' as [Ly Hline'].
    inversion Hline' as [|? ? _ Lz]; subst.
    unfold dotRun. auto.
Qed.

Lemma emailOk_single_line_janeDoe :
  emailOk janeDoe = true <->
  exists x y z, email janeDoe = x ++ 64%N :: y ++ 46%N :: z /\
                x <> [] /\ y <> [] /\ z <> [].
Proof.
  apply (emailOk_single_line janeDoe).
  vm_compute. repeat constructor.
Defined.

(** X3: text put before or after an email that passes does not make it
    fail: the check searches the string and is not anchored. *)
Theorem emailOk_extend (st : FormState) (before after : jsstring) :
  emailOk st = true ->
  emailOk (setField FEmail (before ++ email st ++ after) st) = true.
Proof.
  unfold emailOk. intros H. destruct st as [n e o m]. simpl in *.
  apply test_extend. exact H.
Qed.

Lemma emailOk_extend_janeDoe :
  emailOk (setField FEmail (lit "mail me at " ++ email janeDoe ++ lit " !")
                    janeDoe) = true.
Proof. apply (emailOk_extend janeDoe). vm_compute. reflexivity. Defined.

(** X4: no match runs across a line terminator, so a string of two parts
    joined by LF, CR, LS or PS passes exactly when one of the parts
    does. *)
Theorem emailOk_per_line (st : FormState) (a b : jsstring) (c : code_unit) :
  isLineTerminator c = true ->
  emailOk (setField FEmail (a ++ c :: b) st)
  = emailOk (setField FEmail a st) || emailOk (setField FEmail b st).
Proof.
  intros Hc. unfold emailOk. destruct st as [n e o m]. simpl.
  apply test_emailRe_lines. exact Hc.
Qed.

Lemma emailOk_per_line_example :
  emailOk (setField FEmail (lit "a@b" ++ 10%N :: lit ".c") emptyForm)
  = emailOk (setField FEmail (lit "a@b") emptyForm)
    || emailOk (setField FEmail (lit ".c") emptyForm).
Proof. apply (emailOk_per_line emptyForm). reflexivity. Defined.

End EmailProperties.

(* ================================================================== *)
(** ** Further properties of the submission life cycle *)

Section LifeCycleProperties.

Import JS ContactForm FormView.

(** What passes the guard of [onSubmit]. *)
Lemma eligible_valid st s :
  truthy (canSubmit st s) = true ->
  name st <> [] /\ message st <> [] /\ emailOk st = true.
Proof. intros H. apply canSubmit_truthy_iff in H. tauto. Qed.

Lemma eligible_any_status st s s' :
  truthy (canSubmit st s) = true -> s' <> sending ->
  truthy (canSubmit st s') = true.
Proof.
  intros H Hs. apply canSubmit_truthy_iff.
  apply canSubmit_truthy_iff in H. tauto.
Qed.

Lemma emptyForm_not_eligible s : truthy (canSubmit emptyForm s) = false.
Proof. reflexivity. Qed.

Lemma handle_entries_valid (P : FormState -> Prop) c e :
  (forall st s, truthy (canSubmit st s) = true -> P st) ->
  Forall P (inflight c ++ console c) ->
  Forall P (inflight (handle c e) ++ console (handle c e)).
Proof.
  intros HP Hc. destruct e as [f v| |o]; simpl.
  - exact Hc.
  - destruct (truthy (canSubmit (state c) (status c))) eqn:He.
    + rewrite (onSubmit_eligible _ He). simpl.
      apply Forall_app in Hc as [H1 H2].
      rewrite <- app_assoc. apply Forall_app. split; [exact H1|].
      constructor; [eapply HP, He | exact H2].
    + rewrite (onSubmit_refused _ He). exact Hc.
  - unfold resume. destruct (inflight c) as [|captured rest] eqn:E;
      [rewrite E; exact Hc|].
    apply Forall_app in Hc as [H1 H2].
    inversion H1 as [|? ? Hcap Hrest]; subst.
    destruct o; simpl; apply Forall_app; split; auto.
    apply Forall_app. split; auto.
Qed.

Lemma run_entries_valid (P : FormState -> Prop) es :
  (forall st s, truthy (canSubmit st s) = true -> P st) ->
  forall c, Forall P (inflight c ++ console c) ->
            Forall P (inflight (run c es) ++ console (run c es)).
Proof.
  intros HP. induction es as [|e es IH]; intros c Hc; [exact Hc|].
  rewrite run_cons. apply IH, handle_entries_valid; assumption.
Qed.

(** X5: whatever was handed to the submission operation or logged had a
    non-empty name, a non-empty message and an email that passes the
    check. *)
Theorem submitted_entries_valid (es : list Event) :
  let c := run mounted es in
  Forall (fun st => name st <> [] /\ message st <> [] /\ emailOk st = true)
         (inflight c ++ console c).
Proof.
  intros c. subst c. apply run_entries_valid.
  - intros st s. apply eligible_valid.
  - constructor.
Qed.

Lemma handle_accounting c e k :
  List.length (console c) + List.length (inflight c) <= calls c ->
  calls c <= k + List.length (inflight c) ->
  List.length (console (handle c e)) + List.length (inflight (handle c e))
    <= calls (handle c e) /\
  calls (handle c e)
    <= (k + if is_settle e then 1 else 0) + List.length (inflight (handle c e)) /\
  calls (handle c e) <= calls c + if is_submit e then 1 else 0.
Proof.
  intros H1 H2. destruct e as [f v| |o]; simpl.
  - lia.
  - unfold onSubmit.
    destruct (negb (truthy (canSubmit (state c) (status c)))); simpl;
      rewrite ?length_app; simpl; lia.
  - unfold resume. destruct (inflight c) as [|captured rest] eqn:E.
    + rewrite E in *. simpl in *. lia.
    + destruct o; simpl; rewrite ?length_app; simpl in *; lia.
Qed.

Lemma run_accounting es : forall c k,
  List.length (console c) + List.length (inflight c) <= calls c ->
  calls c <= k + List.length (inflight c) ->
  List.length (console (run c es)) + List.length (inflight (run c es))
    <= calls (run c es) /\
  calls (run c es)
    <= (k + List.length (filter is_settle es))
       + List.length (inflight (run c es)) /\
  calls (run c es) <= calls c + List.length (filter is_submit es).
Proof.
  induction es as [|e es IH]; intros c k H1 H2.
  - simpl. lia.
  - rewrite run_cons.
    destruct (handle_accounting c e k H1 H2) as (A & B & C).
    destruct (IH _ _ A B) as (A' & B' & C').
    split; [exact A'|]. simpl filter.
    destruct (is_settle e), (is_submit e); simpl; lia.
Qed.

Lemma at_most_one_inflight c :
  one_cycle_at_a_time c -> List.length (inflight c) <= 1.
Proof.
  unfold one_cycle_at_a_time.
  destruct (status c); intros H; try (rewrite H; simpl; lia).
  destruct H as [x ->]. simpl. lia.
Qed.

(** X6: the form never logs more than it submitted, never starts more
    submission operations than there were submit actions, and never has
    started more than one beyond those that have settled. *)
Theorem submission_accounting (es : list Event) :
  let c := run mounted es in
  List.length (console c) + List.length (inflight c) <= calls c /\
  calls c <= List.length (filter is_submit es) /\
  calls c <= S (List.length (filter is_settle es)).
Proof.
  intros c. subst c.
  destruct (run_accounting es mounted 0) as (A & B & C);
    [simpl; lia | simpl; lia |].
  pose proof (at_most_one_inflight _ (reachable_one_cycle es)) as D.
  simpl in *. lia.
Qed.

End LifeCycleProperties.

(* ================================================================== *)
(** ** The form as the user sees it *)

Section FormViewProperties.

Import JS ContactForm FormView.

Lemma accepted_submit es :
  let c := run mounted es in
  truthy (canSubmit (state c) (status c)) = true ->
  handle c Submit
  = mkComponent (state c) sending [state c] (S (calls c)) (console c).
Proof.
  intros c He. simpl. rewrite (onSubmit_eligible _ He).
  rewrite (nothing_inflight c);
    [reflexivity | apply reachable_one_cycle | eapply eligible_not_sending, He].
Qed.

Lemma completed_after_changes c captured edits :
  inflight c = [captured] ->
  run c (changes edits ++ [Settle Completed])
  = mkComponent emptyForm success [] (calls c) (console c ++ [captured]).
Proof.
  intros Hc. destruct (run_changes edits c) as (_ & H2 & H3 & H4).
  rewrite run_app. simpl. unfold resume. rewrite H2, Hc, H3, H4.
  reflexivity.
Qed.

(** X7: what is logged on completion is the state as it was when the
    form was submitted, whatever was typed while it was being sent. *)
Theorem logged_is_submitted
    (es : list Event) (edits : list (Field * jsstring)) :
  let c := run mounted es in
  truthy (canSubmit (state c) (status c)) = true ->
  console (run c (Submit :: changes edits ++ [Settle Completed]))
  = console c ++ [state c].
Proof.
  intros c He. subst c. rewrite run_cons, (accepted_submit es He).
  rewrite (completed_after_changes _ edits (captured := state (run mounted es)));
    reflexivity.
Qed.

Lemma logged_is_submitted_janeDoe :
  console (run (run mounted (typing janeDoe))
               (Submit :: changes [(FName, lit "John")]
                  ++ [Settle Completed]))
  = [janeDoe].
Proof.
  apply (logged_is_submitted (typing janeDoe) [(FName, lit "John")]).
  vm_compute. reflexivity.
Defined.

(** X8: once a submission has completed, the form shows four empty
    inputs, no email hint, a disabled button labelled "Send message", the
    thanks and no error note; a submit action then does nothing. *)
Theorem after_success
    (es : list Event) (edits : list (Field * jsstring)) :
  let c := run mounted es in
  status c = sending ->
  let c' := run c (changes edits ++ [Settle Completed]) in
  render c'
  = mkView [] [] [] [] (CText []) true
           (lit "px-5 py-3 rounded-xl font-medium text-white transition "
              ++ disabledClass)
           sendLabel (CElement successText) (CBool false) /\
  handle c' Submit = c'.
Proof.
  intros c Hs c'. subst c'.
  destruct (one_inflight _ (reachable_one_cycle es) Hs) as [captured Hc].
  fold c in Hc. rewrite (completed_after_changes c edits Hc).
  split; reflexivity.
Qed.

Lemma after_success_janeDoe :
  let c' := run (run mounted (typing janeDoe ++ [Submit]))
                (changes [] ++ [Settle Completed]) in
  buttonDisabled (render c') = true /\ handle c' Submit = c'.
Proof.
  destruct (after_success (typing janeDoe ++ [Submit]) []) as [H1 H2].
  - vm_compute. reflexivity.
  - split; [rewrite H1; reflexivity | exact H2].
Defined.

(** X9: after a fault the button is enabled again and the error note is
    shown; a submit action right away hands the same fields to a second
    submission operation. *)
Theorem retry_after_fault (es : list Event) :
  let c := run mounted es in
  truthy (canSubmit (state c) (status c)) = true ->
  let c1 := run c [Submit; Settle Faulted] in
  buttonDisabled (render c1) = false /\
  rendered (errorNote (render c1)) = errorText /\
  rendered (successNote (render c1)) = [] /\
  handle c1 Submit
  = mkComponent (state c) sending [state c] (S (S (calls c))) (console c).
Proof.
  intros c He c1. subst c1 c.
  rewrite run_cons, (accepted_submit es He).
  set (c := run mounted es) in *.
  assert (He' : truthy (canSubmit (state c) error) = true)
    by (eapply eligible_any_status; [exact He | discriminate]).
  unfold run. simpl. unfold resume, onSubmit. simpl.
  rewrite He'. simpl. auto.
Qed.

Lemma retry_after_fault_janeDoe :
  let c1 := run (run mounted (typing janeDoe)) [Submit; Settle Faulted] in
  buttonDisabled (render c1) = false /\
  inflight (handle c1 Submit) = [janeDoe] /\
  calls (handle c1 Submit) = 2.
Proof.
  destruct (retry_after_fault (typing janeDoe)) as (H1 & _ & _ & H4).
  - vm_compute. reflexivity.
  - split; [exact H1|]. rewrite H4. split; reflexivity.
Defined.

(** X10: edits compose as writes to a record: a second edit of a field
    replaces the first, edits of different fields commute, and typing
    the four values of a form gives exactly that form whatever was
    there. *)
Theorem edits_compose (st : FormState) (f g : Field) (v w : jsstring) :
  setField f v (setField f w st) = setField f v st /\
  (f <> g -> setField f v (setField g w st) = setField g w (setField f v st)) /\
  (forall c target, state (run c (typing target)) = target).
Proof.
  split; [|split].
  - destruct f; reflexivity.
  - intros Hfg. destruct f, g; try reflexivity; congruence.
  - intros c [n e o m]. reflexivity.
Qed.

(** X11: the hint under the email input is shown exactly when the email
    is non-empty and fails the check; otherwise the place holds no text at
    all; and whenever the hint is shown the button is disabled. *)
Theorem email_hint_shown (c : Component) :
  let v := render c in
  (rendered (emailHint v) = emailHintText <->
     email (state c) <> [] /\ emailOk (state c) = false) /\
  (rendered (emailHint v) = [] <->
     email (state c) = [] \/ emailOk (state c) = true) /\
  (rendered (emailHint v) = emailHintText -> buttonDisabled v = true).
Proof.
  simpl. unfold canSubmit.
  destruct (emailOk (state c)) eqn:Eok;
    destruct (email (state c)) as [|x e] eqn:Ee; simpl.
  - repeat split; try discriminate; auto; intros [? ?]; congruence.
  - repeat split; try discriminate; auto; intros [? ?]; congruence.
  - repeat split; try discriminate; auto; intros [? ?]; congruence.
  - repeat split; try discriminate; auto.
    + intros [? | ?]; discriminate.
    + intros _. destruct (name (state c)); reflexivity.
Qed.

(** X12: the button reads "Sending…" exactly while the status is
    [sending], and is then disabled; the thanks is shown exactly on
    [success] and the error note exactly on [error]; edits change none of
    the three. *)
Theorem status_display (c : Component) (edits : list (Field * jsstring)) :
  let v := render c in
  let v' := render (run c (changes edits)) in
  (buttonLabel v = sendingLabel <-> status c = sending) /\
  (buttonLabel v = sendingLabel -> buttonDisabled v = true) /\
  (rendered (successNote v) = successText <-> status c = success) /\
  (rendered (errorNote v) = errorText <-> status c = error) /\
  buttonLabel v' = buttonLabel v /\
  successNote v' = successNote v /\
  errorNote v' = errorNote v.
Proof.
  destruct (run_changes edits c) as (Hs & _). simpl. rewrite Hs.
  repeat split; try reflexivity.
  - destruct (status c); simpl; intros H; try reflexivity; discriminate.
  - intros ->. reflexivity.
  - destruct (status c) eqn:E; simpl; intros H; try discriminate.
    rewrite sending_not_eligible. reflexivity.
  - destruct (status c); simpl; intros H; try reflexivity; discriminate.
  - intros ->. reflexivity.
  - destruct (status c); simpl; intros H; try reflexivity; discriminate.
  - intros ->. reflexivity.
Qed.

(** X13: the fields that [Field] marks with an asterisk are exactly the
    ones that block the submission when empty: name, email and message,
    and not the organization. *)
Theorem required_marks_match_validation (f : Field) :
  FieldLabel (fieldLabel f) (fieldRequired f) = fieldLabel f ++ lit " *" <->
  (forall st s, truthy (canSubmit (setField f [] st) s) = false).
Proof.
  assert (Hempty : forall st, emailOk (setField FEmail [] st) = false)
    by (intros [n e o m]; reflexivity).
  destruct f; unfold canSubmit; split; intros H.
  - intros [n e o m] s. reflexivity.
  - reflexivity.
  - intros st s. rewrite (Hempty st).
    destruct (name (setField FEmail [] st)); reflexivity.
  - reflexivity.
  - vm_compute in H. discriminate.
  - specialize (H janeDoe idle). vm_compute in H. discriminate.
  - intros [n e o m] s. simpl name. simpl message.
    destruct (emailOk _), n; reflexivity.
  - reflexivity.
Qed.

End FormViewProperties.

(* ================================================================== *)
(** ** Further properties of the navigation *)

Section NavigationProperties.

Import JS App Page.

Variable current : SectionId -> bool.

Lemma str_eqb_refl a : str_eqb a a = true.
Proof. apply str_eqb_eq. reflexivity. Qed.

Lemma str_eqb_false a b : a <> b -> str_eqb a b = false.
Proof.
  intros H. destruct (str_eqb a b) eqn:E; [|reflexivity].
  apply str_eqb_eq in E. contradiction.
Qed.

(** What one run of the scroll effect can request. *)
Lemma scrollEffect_requests h :
  exists reqs,
    scrollEffect current h = Normal reqs /\
    Forall (fun s => current s = true) reqs /\
    List.length reqs <= 1 /\
    (forall s, current s = true -> h = anchor_of s -> reqs = [s]).
Proof.
  unfold scrollEffect.
  destruct (map_lookup h) as [[s|]|] eqn:E; simpl.
  - apply map_lookup_Ref in E. subst h.
    destruct (current s) eqn:Hs; eexists; (split; [reflexivity|]).
    + repeat split; auto.
      intros s' _ E'. destruct s, s'; try reflexivity; discriminate.
    + repeat split; auto. intros s' Hs' E'.
      destruct s, s'; try discriminate; congruence.
  - eexists. split; [reflexivity|]. repeat split; auto.
    intros s _ ->. rewrite map_lookup_anchor in E. discriminate.
  - eexists. split; [reflexivity|]. repeat split; auto.
    intros s _ ->. rewrite map_lookup_anchor in E. discriminate.
Qed.

(** The two ways a notification goes. *)
Lemma onHash_cases l n :
  let h := or_str l (lit "#home") in
  (hash n = h /\ onHash current l n = Normal n) \/
  (hash n <> h /\
   exists reqs,
     onHash current l n = Normal (mkNav h (scrolled n ++ reqs)) /\
     Forall (fun s => current s = true) reqs /\
     List.length reqs <= 1 /\
     (forall s, current s = true -> h = anchor_of s -> reqs = [s])).
Proof.
  intros h. unfold onHash. fold h.
  destruct (str_eqb h (hash n)) eqn:E.
  - left. apply str_eqb_eq in E. auto.
  - right. split.
    + intros Heq. rewrite Heq, str_eqb_refl in E. discriminate.
    + destruct (scrollEffect_requests h) as (reqs & -> & H1 & H2 & H3).
      exists reqs. simpl. auto.
Qed.

(** X14: a notification that repeats the fragment of the one before
    changes nothing and scrolls nothing. *)
Theorem onHash_idempotent (l : jsstring) (n : Nav) :
  (n1 <- onHash current l n ;; onHash current l n1) = onHash current l n.
Proof.
  destruct (onHash_cases l n) as [[Hh ->] | [_ (reqs & -> & _)]]; simpl.
  - unfold onHash. rewrite Hh, str_eqb_refl. reflexivity.
  - unfold onHash. simpl. rewrite str_eqb_refl. reflexivity.
Qed.

Lemma notify_requests ls : forall n,
  Forall (fun s => current s = true) (scrolled n) ->
  exists n',
    notify current ls n = Normal n' /\
    Forall (fun s => current s = true) (scrolled n') /\
    List.length (scrolled n') <= List.length (scrolled n) + List.length ls.
Proof.
  induction ls as [|l ls IH]; intros n Hn; simpl.
  - exists n. repeat split; auto. lia.
  - destruct (onHash_cases l n) as [[_ ->] | [_ (reqs & -> & H1 & H2 & _)]];
      simpl.
    + destruct (IH n Hn) as (n' & E & F & L). exists n'.
      repeat split; auto. lia.
    + destruct (IH (mkNav (or_str l (lit "#home")) (scrolled n ++ reqs)))
        as (n' & E & F & L).
      * simpl. apply Forall_app. auto.
      * exists n'. repeat split; auto.
        simpl in L. rewrite length_app in L. lia.
Qed.

(** X15: over a whole visit nothing throws, every scroll request goes to
    a section whose element is attached, and there is at most one
    request for the first render and one per notification. *)
Theorem scrolls_attached_and_bounded (l0 : jsstring) (ls : list jsstring) :
  exists n,
    visit current l0 ls = Normal n /\
    Forall (fun s => current s = true) (scrolled n) /\
    List.length (scrolled n) <= S (List.length ls).
Proof.
  unfold visit, mount. simpl.
  destruct (scrollEffect_requests l0) as (reqs & -> & H1 & H2 & _). simpl.
  destruct (notify_requests ls (mkNav l0 reqs) H1) as (n' & E & F & L).
  exists n'. repeat split; auto. simpl in L. lia.
Qed.

Lemma last_cons_default (A : Type) (l : list A) :
  forall x d, last (x :: l) d = last l x.
Proof.
  induction l as [|y l IH]; intros x d; [reflexivity|].
  change (last (x :: y :: l) d) with (last (y :: l) d).
  rewrite (IH y d), (IH y x). reflexivity.
Qed.

Lemma notify_hash ls : forall n,
  exists n',
    notify current ls n = Normal n' /\
    hash n' = last (map (fun l => or_str l (lit "#home")) ls) (hash n).
Proof.
  induction ls as [|l ls IH]; intros n; simpl notify.
  - exists n. auto.
  - destruct (onHash_hash current l n) as (n1 & -> & H1). simpl.
    destruct (IH n1) as (n' & E & H'). exists n'. split; [exact E|].
    rewrite H', H1. symmetry.
    exact (last_cons_default (map (fun l => or_str l (lit "#home")) ls)
                             (or_str l (lit "#home")) (hash n)).
Qed.

(** X16: the [hash] held after a visit is the fragment of the last
    notification, with "#home" for an empty one, and the fragment at load
    time, as it is, when there was no notification. *)
Theorem hash_is_last_fragment (l0 : jsstring) (ls : list jsstring) :
  exists n,
    visit current l0 ls = Normal n /\
    hash n = last (map (fun l => or_str l (lit "#home")) ls) l0.
Proof.
  unfold visit, mount. simpl.
  destruct (scrollEffect_requests l0) as (reqs & -> & _). simpl.
  apply (notify_hash ls (mkNav l0 reqs)).
Qed.

Lemma notify_in_sync ls :
  (forall s, current s = true) ->
  forall n,
    (forall s, hash n = anchor_of s ->
               exists before, scrolled n = before ++ [s]) ->
    exists n',
      notify current ls n = Normal n' /\
      forall s, hash n' = anchor_of s ->
                exists before, scrolled n' = before ++ [s].
Proof.
  intros Hcur. induction ls as [|l ls IH]; intros n Hn; simpl.
  - eauto.
  - destruct (onHash_cases l n) as [[_ ->] | [_ (reqs & -> & _ & _ & H3)]];
      simpl; apply IH; [exact Hn|].
    intros s Hs. simpl in *. exists (scrolled n).
    rewrite (H3 s (Hcur s) Hs). reflexivity.
Qed.

(** X17: with the three sections attached, whenever the [hash] held is
    one of the three anchors, the latest scroll request went to its
    section. *)
Theorem scrolled_follows_hash (l0 : jsstring) (ls : list jsstring) :
  (forall s, current s = true) ->
  exists n,
    visit current l0 ls = Normal n /\
    forall s, hash n = anchor_of s ->
              exists before, scrolled n = before ++ [s].
Proof.
  intros Hcur. unfold visit, mount. simpl.
  destruct (scrollEffect_requests l0) as (reqs & -> & _ & _ & H3). simpl.
  apply (notify_in_sync ls Hcur).
  intros s Hs. simpl in *. exists []. rewrite (H3 s (Hcur s) Hs). reflexivity.
Qed.

End NavigationProperties.

Section LinkProperties.

Import JS App Page.

Lemma scrolled_follows_hash_attached :
  exists n,
    visit attached [] [lit "#about"; lit "#team"; lit "#contact"] = Normal n /\
    forall s, hash n = anchor_of s ->
              exists before, scrolled n = before ++ [s].
Proof.
  apply (scrolled_follows_hash attached []
           [lit "#about"; lit "#team"; lit "#contact"]).
  intros s. reflexivity.
Defined.

Lemma onHash_anchor_attached s n :
  hash n <> anchor_of s ->
  onHash attached (anchor_of s) n
  = Normal (mkNav (anchor_of s) (scrolled n ++ [s])).
Proof.
  intros Hn. unfold onHash.
  replace (or_str (anchor_of s) (lit "#home")) with (anchor_of s)
    by (destruct s; reflexivity).
  rewrite str_eqb_false by congruence.
  rewrite scrollEffect_anchor. reflexivity.
Qed.

(** X18: every link of the page points at one of the three anchors, the
    anchor being "#" followed by the [id] of the section that [map] gives
    for it; following a link whose fragment is not the one held issues
    one scroll request, to that section. *)
Theorem links_reach_sections (h : jsstring) :
  In h hrefs ->
  exists s,
    h = 35%N :: section_id s /\
    map_lookup h = Some (Ref s) /\
    forall n, hash n <> h ->
              onHash attached h n = Normal (mkNav h (scrolled n ++ [s])).
Proof.
  intros H.
  assert (Hs : exists s, h = anchor_of s).
  { unfold hrefs in H. simpl in H.
    repeat (destruct H as [H | H];
            [first [exists home; symmetry; exact H
                   | exists about; symmetry; exact H
                   | exists contact; symmetry; exact H]|]).
    destruct H. }
  destruct Hs as [s ->]. exists s. split; [|split].
  - destruct s; reflexivity.
  - apply map_lookup_anchor.
  - intros n Hn. apply onHash_anchor_attached, Hn.
Qed.

Lemma links_reach_sections_contact :
  exists s,
    lit "#contact" = 35%N :: section_id s /\
    map_lookup (lit "#contact") = Some (Ref s) /\
    forall n, hash n <> lit "#contact" ->
              onHash attached (lit "#contact") n
              = Normal (mkNav (lit "#contact") (scrolled n ++ [s])).
Proof.
  apply (@links_reach_sections (lit "#contact")).
  unfold hrefs. simpl. auto 10.
Defined.

End LinkProperties.
